(** * SimpleFlareWallet: an owner-gated vault for native FLR

    A shallow embedding of the Solidity contract [SimpleFlareWallet]
    (owner field, three events, the [onlyOwner] modifier, the constructor and
    the entry points) together with the part of the EVM the contract
    relies on: the ledger balance of the contract's own account, the credit
    of [msg.value] before a payable body runs, the low-level
    [_to.call{value: v}("")] with its success flag, the rollback of a
    reverted frame, and re-entrant calls made by the code of a recipient.

    Integers are [Z]; a [uint256] is a [Z] in [0, 2^256 - 1] and an
    [address] a [Z] whose null value is [0].  The contract does no arithmetic
    of its own (only comparisons), so there is no wrap-around to write out;
    the ledger arithmetic is the EVM's.  Gas is not modelled.  The entry
    points that are not [payable] are modelled for calls that carry no value
    (the compiler rejects the others before the body runs); a call with any
    other data reverts, the contract having no [fallback], and is left
    out. *)

From Stdlib Require Import ZArith List String Bool Lia.
Import ListNotations.

Open Scope string_scope.
Open Scope Z_scope.

(** ** Values *)

Definition address := Z.
Definition uint256 := Z.

(** [address(0)] *)
Definition address_zero : address := 0.

Definition uint256_max : Z := 2 ^ 256 - 1.

Definition is_uint256 (v : Z) : bool := (0 <=? v) && (v <=? uint256_max).

(** ** Events, in the order of their declaration in the contract *)

Inductive event : Type :=
| Deposited (from : address) (amount : uint256)
| Withdrawn (to : address) (amount : uint256)
| OwnerChanged (oldOwner newOwner : address).

(** ** The state a call can observe or change

    [this] is [address(this)] and never changes; [owner] is the contract's
    only storage variable; [balance] is [address(this).balance], the ledger
    balance of the contract's account; [logs] is the event log, oldest
    first. *)

Record wallet : Type := mkWallet {
  this : address;
  owner : address;
  balance : Z;
  logs : list event
}.

Definition set_owner (o : address) (w : wallet) : wallet :=
  mkWallet (this w) o (balance w) (logs w).

Definition credit (v : uint256) (w : wallet) : wallet :=
  mkWallet (this w) (owner w) (balance w + v) (logs w).

Definition debit (v : uint256) (w : wallet) : wallet :=
  mkWallet (this w) (owner w) (balance w - v) (logs w).

Definition log_event (e : event) (w : wallet) : wallet :=
  mkWallet (this w) (owner w) (balance w) (logs w ++ [e]).

(** ** Contract code runs in a state-and-revert monad *)

Inductive result (A : Type) : Type :=
| Ok (a : A)
| Revert (reason : string).

Arguments Ok {A} a.
Arguments Revert {A} reason.

Definition exec (A : Type) : Type := wallet -> result (A * wallet).

Definition ret {A : Type} (a : A) : exec A := fun w => Ok (a, w).

Definition bind {A B : Type} (m : exec A) (k : A -> exec B) : exec B :=
  fun w => match m w with
           | Ok (a, w') => k a w'
           | Revert r => Revert r
           end.

Notation "x <- m ;; k" := (bind m (fun x => k))
  (at level 61, m at next level, right associativity).
Notation "m ;; k" := (bind m (fun _ => k))
  (at level 61, right associativity).

(** [require(cond, reason)] *)
Definition require (cond : bool) (reason : string) : exec unit :=
  fun w => if cond then Ok (tt, w) else Revert reason.

(** [emit e] *)
Definition emit (e : event) : exec unit := fun w => Ok (tt, log_event e w).

(** reading [owner] and [address(this).balance]; the assignment [owner = o] *)
Definition read_owner : exec address := fun w => Ok (owner w, w).
Definition self_balance : exec uint256 := fun w => Ok (balance w, w).
Definition write_owner (o : address) : exec unit := fun w => Ok (tt, set_owner o w).

(** The revert reasons of the contract, under the names of the error
    taxonomy. *)
Definition Unauthorized : string := "Not owner".
Definition InvalidRecipient : string := "Zero address".
Definition ZeroValue : string := "No FLR sent".
Definition InsufficientBalance : string := "Insufficient balance".
Definition NoBalance : string := "No balance".
Definition TransferFailed : string := "Transfer failed".

(** ** The contract *)

(** [modifier onlyOwner]: the guard that runs before the body. *)
Definition onlyOwner (msg_sender : address) : exec unit :=
  o <- read_owner ;;
  require (msg_sender =? o) "Not owner".

(** [constructor()]: the account at [self] may already hold [endowment]
    (value sent to the address before deployment); the log starts empty. *)
Definition constructor (self msg_sender : address) (endowment : Z) : wallet :=
  mkWallet self msg_sender endowment [].

Definition changeOwner (msg_sender _newOwner : address) : exec unit :=
  onlyOwner msg_sender ;;
  require (negb (_newOwner =? address_zero)) "Zero address" ;;
  o <- read_owner ;;
  emit (OwnerChanged o _newOwner) ;;
  write_owner _newOwner.

(** The bodies of the payable entry points run after the EVM has credited
    [msg_value] to the account (see [payable] below). *)
Definition deposit (msg_sender : address) (msg_value : uint256) : exec unit :=
  require (msg_value >? 0) "No FLR sent" ;;
  emit (Deposited msg_sender msg_value).

Definition receive (msg_sender : address) (msg_value : uint256) : exec unit :=
  emit (Deposited msg_sender msg_value).

Definition getBalance : exec uint256 := self_balance.

(** [withdraw] and [withdrawAll] are parameterised by [call], the low-level
    [_to.call{value: v}("")], which returns the success flag. *)
Definition withdraw (call : address -> uint256 -> exec bool)
    (msg_sender _to : address) (_amount : uint256) : exec unit :=
  onlyOwner msg_sender ;;
  require (negb (_to =? address_zero)) "Zero address" ;;
  b <- self_balance ;;
  require (b >=? _amount) "Insufficient balance" ;;
  success <- call _to _amount ;;
  require success "Transfer failed" ;;
  emit (Withdrawn _to _amount).

Definition withdrawAll (call : address -> uint256 -> exec bool)
    (msg_sender _to : address) : exec unit :=
  onlyOwner msg_sender ;;
  balance <- self_balance ;;
  require (balance >? 0) "No balance" ;;
  require (negb (_to =? address_zero)) "Zero address" ;;
  success <- call _to balance ;;
  require success "Transfer failed" ;;
  emit (Withdrawn _to balance).

(** ** The environment: message calls, value transfer, re-entrancy *)

(** A message call to the wallet, and what the code of a recipient does when
    the wallet hands it control with a value transfer: it may call back into
    the wallet any number of times (as any sender: itself or, through other
    contracts, anyone), and in the end accepts the transfer or reverts. *)
Inductive call : Type :=
| CallChangeOwner (_newOwner : address)
| CallDeposit (msg_value : uint256)
| CallWithdraw (_to : address) (_amount : uint256) (recipient : reaction)
| CallWithdrawAll (_to : address) (recipient : reaction)
| CallGetBalance
| CallOwner
| Transfer (msg_value : uint256)
with reaction : Type :=
| Accept
| Reject
| Reenter (msg_sender : address) (c : call) (next : reaction).

Scheme call_mut := Induction for call Sort Prop
  with reaction_mut := Induction for reaction Sort Prop.
Combined Scheme call_reaction_ind from call_mut, reaction_mut.

(** A payable entry point: the value is credited before the body runs. *)
Definition payable {A : Type} (msg_value : uint256) (body : exec A) : exec A :=
  fun w => body (credit msg_value w).

(** A call made from inside another frame: when it reverts only its own
    effects are undone, and the calling code goes on. *)
Definition attempt {A : Type} (m : exec A) (w : wallet) : wallet :=
  match m w with
  | Ok (_, w') => w'
  | Revert _ => w
  end.

(** [_to.call{value: v}("")] from the wallet.  The call fails when the
    wallet cannot pay [v].  When [_to] is the wallet itself the value comes
    back to the same account and the wallet's own [receive] runs with
    [msg.sender = address(this)].  Otherwise the value leaves the account and
    the recipient's code runs; when that reverts the whole frame, the value
    transfer included, is undone. *)
Definition call_value (recipient_code : wallet -> option wallet)
    (_to : address) (v : uint256) : exec bool :=
  fun w =>
    if balance w <? v then Ok (false, w)
    else if _to =? this w then
      match payable v (receive (this w) v) (debit v w) with
      | Ok (_, w') => Ok (true, w')
      | Revert _ => Ok (false, w)
      end
    else
      match recipient_code (debit v w) with
      | Some w' => Ok (true, w')
      | None => Ok (false, w)
      end.

(** The dispatcher of the contract, and the run of a recipient's code. *)
Fixpoint dispatch (c : call) (msg_sender : address) {struct c} : exec unit :=
  match c with
  | CallChangeOwner n => changeOwner msg_sender n
  | CallDeposit v => payable v (deposit msg_sender v)
  | CallWithdraw to a r => withdraw (call_value (react r)) msg_sender to a
  | CallWithdrawAll to r => withdrawAll (call_value (react r)) msg_sender to
  | CallGetBalance => _ <- getBalance ;; ret tt
  | CallOwner => _ <- read_owner ;; ret tt
  | Transfer v => payable v (receive msg_sender v)
  end
with react (r : reaction) (w : wallet) {struct r} : option wallet :=
  match r with
  | Accept => Some w
  | Reject => None
  | Reenter sender c next => react next (attempt (dispatch c sender) w)
  end.

(** The outcome of a transaction, as its sender sees it. *)
Inductive receipt : Type :=
| Success
| Failed (reason : string).

(** A transaction: a reverted call leaves the state as it was. *)
Definition transact (w : wallet) (msg_sender : address) (c : call)
  : wallet * receipt :=
  match dispatch c msg_sender w with
  | Ok (_, w') => (w', Success)
  | Revert reason => (w, Failed reason)
  end.

(** Inputs the EVM can deliver: every value and amount is a [uint256]. *)
Fixpoint valid_call (c : call) : bool :=
  match c with
  | CallChangeOwner _ => true
  | CallDeposit v => is_uint256 v
  | CallWithdraw _ a r => is_uint256 a && valid_reaction r
  | CallWithdrawAll _ r => valid_reaction r
  | CallGetBalance => true
  | CallOwner => true
  | Transfer v => is_uint256 v
  end
with valid_reaction (r : reaction) : bool :=
  match r with
  | Accept => true
  | Reject => true
  | Reenter _ c next => valid_call c && valid_reaction next
  end.

(** Whether the recipient's code ends by accepting the transfer. *)
Fixpoint accepts (r : reaction) : bool :=
  match r with
  | Accept => true
  | Reject => false
  | Reenter _ _ next => accepts next
  end.

(** Whether a transfer from wallet [w] to [_to] is accepted: the wallet's own
    [receive] never reverts; any other recipient decides by its code. *)
Definition recipient_accepts (w : wallet) (_to : address) (r : reaction) : bool :=
  if _to =? this w then true else accepts r.

(** States reachable from construction by transactions. *)
Inductive reachable : wallet -> Prop :=
| reach_constructor self creator endowment :
    creator <> address_zero -> 0 <= endowment ->
    reachable (constructor self creator endowment)
| reach_transact w msg_sender c :
    reachable w -> valid_call c = true ->
    reachable (fst (transact w msg_sender c)).


(** The operations restricted to the owner. *)
Definition restricted (c : call) : bool :=
  match c with
  | CallChangeOwner _ | CallWithdraw _ _ _ | CallWithdrawAll _ _ => true
  | _ => false
  end.

(** The two predicates every reachable state satisfies. *)
Definition invariant (w : wallet) : Prop :=
  owner w <> address_zero /\ 0 <= balance w.

(** ** The specification's wording, and concrete states *)

(** The property of a successful withdrawal as the specification words it:
    the call succeeds, the balance goes down by exactly the amount, and
    [Withdrawn(to, a)] is emitted. *)
Definition withdraw_debits (w : wallet) (sender to : address) (a : uint256)
    (r : reaction) : Prop :=
  exists w',
    transact w sender (CallWithdraw to a r) = (w', Success) /\
    balance w' = balance w - a /\
    exists earlier, logs w' = (logs w ++ earlier ++ [Withdrawn to a])%list.

(** [withdrawAll] as the specification words it: a restricted operation
    that is [withdraw(to, balance)] at the balance observed at call time,
    with the additional precondition [balance > 0]. *)
Definition withdrawAll_spec (ext : address -> uint256 -> exec bool)
    (msg_sender _to : address) : exec unit :=
  onlyOwner msg_sender ;;
  b <- self_balance ;;
  require (b >? 0) NoBalance ;;
  withdraw ext msg_sender _to b.

(** The property of an empty wallet as C5 states it, for every caller. *)
Definition withdrawAll_empty_NoBalance (w : wallet) (sender to : address)
    (r : reaction) : Prop :=
  balance w = 0 ->
  transact w sender (CallWithdrawAll to r) = (w, Failed NoBalance).

(** A plain value transfer (empty call data) of [msg_value] to the wallet
    by any account.  The EVM takes the value from the sender's account and
    adds it to the wallet's before [receive] runs.  The sender is the wallet
    itself when the wallet pays its own address, which it does through the
    low-level call of [withdraw] and [withdrawAll] (see [call_value]): the
    value then leaves and enters the same account, and the transfer fails
    when the wallet does not hold it.  The calls of [dispatch] and
    [transact] are those of other accounts.  [None] is a failed transfer. *)
Definition plain_transfer (msg_sender : address) (msg_value : uint256)
    (w : wallet) : option wallet :=
  let paid :=
    if msg_sender =? this w then
      if balance w <? msg_value then None else Some (debit msg_value w)
    else Some w in
  match paid with
  | None => None
  | Some w1 =>
      match payable msg_value (receive msg_sender msg_value) w1 with
      | Ok (_, w') => Some w'
      | Revert _ => None
      end
  end.

(** The property of a plain transfer as C9 states it, for every sender: the
    transfer is accepted, the balance goes up by the value and
    [Deposited(sender, v)] is logged. *)
Definition plain_transfer_credits (w : wallet) (sender : address)
    (v : uint256) : Prop :=
  exists w',
    plain_transfer sender v w = Some w' /\
    balance w' = balance w + v /\
    logs w' = (logs w ++ [Deposited sender v])%list.

(** Concrete parties used in the examples: the wallet lives at address 99,
    its creator is 1, a depositor is 2 and a recipient is 3. *)
Definition funded : wallet := mkWallet 99 1 10 [].
Definition empty : wallet := constructor 99 1 0.

(** ** Reading the state off the event log *)

(** The owner a reader of the log arrives at: starting from [o], every
    [OwnerChanged(old, new)] must name the owner held so far as [old] and
    hands over to [new]; [None] when an event does not fit. *)
Fixpoint owner_chain (o : address) (evs : list event) : option address :=
  match evs with
  | [] => Some o
  | OwnerChanged old n :: rest =>
      if old =? o then owner_chain n rest else None
  | _ :: rest => owner_chain o rest
  end.

(** The value an event reports as moved into the wallet. *)
Definition net_value (e : event) : Z :=
  match e with
  | Deposited _ v => v
  | Withdrawn _ v => - v
  | OwnerChanged _ _ => 0
  end.

Definition net_flow (evs : list event) : Z :=
  fold_right (fun e acc => net_value e + acc) 0 evs.

(** [effect d w w']: going from [w] to [w'] only appended events to the log;
    these events hand the ownership from the owner of [w] to the owner of
    [w']; the balance moved by their net flow plus [d] (the value in flight
    that no event reports yet); the address is the same. *)
Definition effect (d : Z) (w w' : wallet) : Prop :=
  exists evs,
    logs w' = (logs w ++ evs)%list /\
    owner_chain (owner w) evs = Some (owner w') /\
    balance w' = balance w + net_flow evs + d /\
    this w' = this w.

(** A sequence of transactions, each by its sender. *)
Definition run (w : wallet) (txs : list (address * call)) : wallet :=
  fold_left (fun acc tx => fst (transact acc (fst tx) (snd tx))) txs w.

(** A recipient whose calls back into the wallet all come from senders other
    than [o] and carry [uint256] values. *)
Fixpoint outsiders (o : address) (r : reaction) : bool :=
  match r with
  | Accept => true
  | Reject => true
  | Reenter s c next => negb (s =? o) && valid_call c && outsiders o next
  end.

(** ** The JavaScript client of the contract

    [retryWithBackoff] and the wrappers [deposit], [withdraw] and
    [withdrawAll] of the client library, and the message the hook shows for a
    failed transaction.  A promise is modelled by how it settles.  A thrown
    value is modelled by the fields the code inspects: [code] and
    [data.httpStatus] when they are numbers, and [message], where the empty
    string also stands for a missing one (the code treats both alike).  The
    function passed to [retryWithBackoff] is modelled by the outcome of each
    of its successive invocations; [maxRetries] is a natural number; delays
    are the integers handed to [setTimeout], in milliseconds. *)
Module Client.

Record rpc_error : Type := mkError {
  code : option Z;
  httpStatus : option Z;
  message : string
}.

Inductive outcome (A : Type) : Type :=
| Resolved (a : A)
| Rejected (error : rpc_error).

Arguments Resolved {A} a.
Arguments Rejected {A} error.

(** How an [async] function settles: it returns a value, throws, or falls
    off its end and returns [undefined]. *)
Inductive settled (A : Type) : Type :=
| Returned (a : A)
| Thrown (error : rpc_error)
| Undefined.

Arguments Returned {A} a.
Arguments Thrown {A} error.
Arguments Undefined {A}.

(** What a run of [retryWithBackoff] did: how it settled, the delays it
    waited (oldest first) and how many times it invoked [fn]. *)
Record trace (A : Type) : Type := mkTrace {
  result : settled A;
  delays : list Z;
  calls : nat
}.

Arguments mkTrace {A} result delays calls.
Arguments result {A} t.
Arguments delays {A} t.
Arguments calls {A} t.

Definition is_number (n : Z) (field : option Z) : bool :=
  match field with
  | Some m => m =? n
  | None => false
  end.

(** [error?.code === -32005 || error?.data?.httpStatus === 429] *)
Definition isRateLimited (error : rpc_error) : bool :=
  is_number (-32005) (code error) || is_number 429 (httpStatus error).

(** The loop [for (let i = 0; i < maxRetries; i++)] from iteration [i] on,
    with [remaining] iterations left before [i] reaches [maxRetries]. *)
Fixpoint retry_loop {A : Type} (fn : nat -> outcome A) (maxRetries : nat)
    (baseDelay : Z) (remaining i : nat) : trace A :=
  match remaining with
  | O => mkTrace Undefined [] 0
  | S remaining' =>
      match fn i with
      | Resolved a => mkTrace (Returned a) [] 1
      | Rejected error =>
          if isRateLimited error && (Z.of_nat i <? Z.of_nat maxRetries - 1)
          then
            let delay := baseDelay * 2 ^ Z.of_nat i in
            let rest := retry_loop fn maxRetries baseDelay remaining' (S i) in
            mkTrace (result rest) (delay :: delays rest) (S (calls rest))
          else mkTrace (Thrown error) [] 1
      end
  end.

Definition retryWithBackoff {A : Type} (fn : nat -> outcome A)
    (maxRetries : nat) (baseDelay : Z) : trace A :=
  retry_loop fn maxRetries baseDelay maxRetries 0.

Definition busy_message : string :=
  "Network is busy. Please wait a moment and try again.".

(** [new Error("Network is busy...")] with [code] and [data] copied over. *)
Definition friendlyError (error : rpc_error) : rpc_error :=
  mkError (code error) (httpStatus error) busy_message.

(** The [try]/[catch] shared by the three wrappers of the library: retry
    with the defaults (3 attempts, 1000 ms), then turn a rate-limit error
    into the friendly one and rethrow any other.  The attempts made and the
    delays waited are those of the retry. *)
Definition submit {A : Type} (send : nat -> outcome A) : trace A :=
  let tx := retryWithBackoff send 3 1000 in
  mkTrace
    match result tx with
    | Thrown error =>
        if isRateLimited error then Thrown (friendlyError error)
        else Thrown error
    | r => r
    end
    (delays tx) (calls tx).

(** [send] stands for [contract.deposit({ value: parseEther(amount) })],
    [contract.withdraw(to, parseEther(amount))] and
    [contract.withdrawAll(to)]. *)
Definition deposit {A : Type} (send : nat -> outcome A) : trace A := submit send.
Definition withdraw {A : Type} (send : nat -> outcome A) : trace A := submit send.
Definition withdrawAll {A : Type} (send : nat -> outcome A) : trace A := submit send.

(** [s.includes(sub)] *)
Fixpoint includes (s sub : string) : bool :=
  prefix sub s ||
  match s with
  | EmptyString => false
  | String _ s' => includes s' sub
  end.

(** The message the hook computes in its [catch] block when a transaction
    fails; [fallback] is "Failed to deposit", "Failed to withdraw" or
    "Failed to withdraw all".  The caught value is [None] when it is [null]
    or [undefined]: [err.message] is read without [?.], so the block raises
    a [TypeError] and sets no message, which is the result [None].  The
    message of an error, when present, is a string. *)
Definition errorMessage (fallback : string) (err : option rpc_error)
  : option string :=
  match err with
  | None => None
  | Some err =>
      let errorMessage :=
        match message err with
        | EmptyString => fallback
        | m => m
        end in
      Some
        (if isRateLimited err then busy_message
         else if includes (message err) "user rejected"
                 || is_number 4001 (code err)
         then "Transaction was cancelled"
         else if includes (message err) "insufficient funds"
         then "Insufficient funds for this transaction"
         else errorMessage)
  end.

(** The delay before retry number [i], and the index of the first
    invocation that does not end in a rate-limit error. *)
Definition delay_of (baseDelay : Z) (i : nat) : Z := baseDelay * 2 ^ Z.of_nat i.

Definition retryable {A : Type} (o : outcome A) : bool :=
  match o with
  | Resolved _ => false
  | Rejected error => isRateLimited error
  end.

Definition settle {A : Type} (o : outcome A) : settled A :=
  match o with
  | Resolved a => Returned a
  | Rejected error => Thrown error
  end.

End Client.

(** ** Equations of the entry points *)

Ltac unfold_exec :=
  cbv [changeOwner deposit receive getBalance withdraw withdrawAll onlyOwner
       payable bind ret require emit read_owner self_balance write_owner].

Ltac cmp_cases :=
  repeat match goal with
  | |- context [Z.geb ?a ?b] => rewrite (Z.geb_leb a b)
  | |- context [Z.gtb ?a ?b] => rewrite (Z.gtb_ltb a b)
  | |- context [Z.eqb ?a ?b] => destruct (Z.eqb_spec a b)
  | |- context [Z.leb ?a ?b] => destruct (Z.leb_spec a b)
  | |- context [Z.ltb ?a ?b] => destruct (Z.ltb_spec a b)
  end.

Lemma changeOwner_eq sender n w :
  changeOwner sender n w =
    if negb (sender =? owner w) then Revert Unauthorized
    else if n =? address_zero then Revert InvalidRecipient
    else Ok (tt, set_owner n (log_event (OwnerChanged (owner w) n) w)).
Proof.
  unfold_exec. destruct (sender =? owner w); simpl; [|reflexivity].
  destruct (n =? address_zero); reflexivity.
Qed.

Lemma deposit_eq sender v w :
  deposit sender v w =
    if v >? 0 then Ok (tt, log_event (Deposited sender v) w) else Revert ZeroValue.
Proof. unfold_exec. destruct (v >? 0); reflexivity. Qed.

Lemma withdraw_eq ext sender to a w :
  withdraw ext sender to a w =
    if negb (sender =? owner w) then Revert Unauthorized
    else if to =? address_zero then Revert InvalidRecipient
    else if negb (balance w >=? a) then Revert InsufficientBalance
    else match ext to a w with
         | Ok (true, w') => Ok (tt, log_event (Withdrawn to a) w')
         | Ok (false, _) => Revert TransferFailed
         | Revert reason => Revert reason
         end.
Proof.
  unfold_exec. destruct (sender =? owner w); simpl; [|reflexivity].
  destruct (to =? address_zero); simpl; [reflexivity|].
  destruct (balance w >=? a); simpl; [|reflexivity].
  destruct (ext to a w) as [[[|] w']|reason]; reflexivity.
Qed.

Lemma withdrawAll_eq ext sender to w :
  withdrawAll ext sender to w =
    if negb (sender =? owner w) then Revert Unauthorized
    else if negb (balance w >? 0) then Revert NoBalance
    else if to =? address_zero then Revert InvalidRecipient
    else match ext to (balance w) w with
         | Ok (true, w') => Ok (tt, log_event (Withdrawn to (balance w)) w')
         | Ok (false, _) => Revert TransferFailed
         | Revert reason => Revert reason
         end.
Proof.
  unfold_exec. destruct (sender =? owner w); simpl; [|reflexivity].
  destruct (balance w >? 0); simpl; [|reflexivity].
  destruct (to =? address_zero); simpl; [reflexivity|].
  destruct (ext to (balance w) w) as [[[|] w']|reason]; reflexivity.
Qed.

(** ** The low-level call *)

Lemma react_rejects r : accepts r = false -> forall w, react r w = None.
Proof.
  induction r as [| |sender c next IH]; simpl; intros H w.
  - discriminate.
  - reflexivity.
  - apply IH, H.
Qed.

Lemma react_accepts r : accepts r = true -> forall w, exists w', react r w = Some w'.
Proof.
  induction r as [| |sender c next IH]; simpl; intros H w.
  - exists w; reflexivity.
  - discriminate.
  - apply IH, H.
Qed.

(** A rejected transfer returns [false] and leaves the state as it was. *)
Lemma call_value_rejected w to v r :
  recipient_accepts w to r = false ->
  call_value (react r) to v w = Ok (false, w).
Proof.
  unfold recipient_accepts, call_value. intros H.
  destruct (balance w <? v); [reflexivity|].
  destruct (to =? this w); [discriminate|].
  rewrite (react_rejects r H). reflexivity.
Qed.

(** A transfer the wallet can pay and the recipient accepts returns [true]. *)
Lemma call_value_accepted w to v r :
  recipient_accepts w to r = true -> v <= balance w ->
  exists w', call_value (react r) to v w = Ok (true, w').
Proof.
  unfold recipient_accepts, call_value. intros H Hv.
  destruct (Z.ltb_spec (balance w) v); [lia|].
  destruct (to =? this w).
  - unfold_exec. eexists; reflexivity.
  - destruct (react_accepts r H (debit v w)) as [w' ->]. eexists; reflexivity.
Qed.

(** The low-level call never reverts its caller, and it returns [true] only
    when the recipient accepted. *)
Lemma call_value_total f to v w :
  exists b w', call_value f to v w = Ok (b, w').
Proof.
  unfold call_value.
  destruct (balance w <? v); [eauto|].
  destruct (to =? this w).
  - unfold_exec. eauto.
  - destruct (f (debit v w)); eauto.
Qed.

Lemma call_value_true w to v r w' :
  call_value (react r) to v w = Ok (true, w') ->
  recipient_accepts w to r = true.
Proof.
  intros H. destruct (recipient_accepts w to r) eqn:E; [reflexivity|].
  rewrite (call_value_rejected w to v r E) in H. discriminate.
Qed.

(** The wallet paying itself: the balance is unchanged, [receive] logs. *)
Lemma call_value_self w v f :
  v <= balance w ->
  call_value f (this w) v w = Ok (true, log_event (Deposited (this w) v) w).
Proof.
  intros Hv. unfold call_value.
  destruct (Z.ltb_spec (balance w) v); [lia|].
  rewrite Z.eqb_refl. unfold_exec. unfold log_event, credit, debit; simpl.
  do 3 f_equal. lia.
Qed.


(** ** Preservation of the invariant, re-entrant calls included *)

Lemma invariant_log_event e w : invariant w -> invariant (log_event e w).
Proof. intros H; exact H. Qed.

Lemma invariant_credit v w : 0 <= v -> invariant w -> invariant (credit v w).
Proof. unfold invariant; simpl. intros Hv [Ho Hb]. split; [exact Ho|lia]. Qed.

Lemma is_uint256_nonneg v : is_uint256 v = true -> 0 <= v.
Proof.
  unfold is_uint256. intros H. apply andb_prop in H as [H _].
  apply Z.leb_le, H.
Qed.

Lemma call_value_invariant f to v w b w' :
  (forall w1 w2, invariant w1 -> f w1 = Some w2 -> invariant w2) ->
  invariant w -> call_value f to v w = Ok (b, w') -> invariant w'.
Proof.
  intros Hf Hw. unfold call_value.
  destruct (Z.ltb_spec (balance w) v) as [Hlt|Hle].
  - intros [= _ <-]. exact Hw.
  - destruct (to =? this w).
    + unfold_exec. intros [= _ <-].
      destruct Hw as [Ho Hb]. split; simpl; [exact Ho|lia].
    + destruct (f (debit v w)) as [w2|] eqn:E.
      * intros [= _ <-]. apply (Hf (debit v w)); [|exact E].
        destruct Hw as [Ho Hb]. split; simpl; [exact Ho|lia].
      * intros [= _ <-]. exact Hw.
Qed.

Lemma dispatch_react_invariant :
  (forall c sender w u w',
      valid_call c = true -> invariant w ->
      dispatch c sender w = Ok (u, w') -> invariant w') /\
  (forall r w w',
      valid_reaction r = true -> invariant w ->
      react r w = Some w' -> invariant w').
Proof.
  apply call_reaction_ind.
  - (* changeOwner *)
    intros n sender w u w' _ [Ho Hb]. simpl. rewrite changeOwner_eq.
    destruct (sender =? owner w); simpl; [|discriminate].
    destruct (Z.eqb_spec n address_zero); [discriminate|].
    intros [= _ <-]. split; simpl; assumption.
  - (* deposit *)
    intros v sender w u w' Hv Hw. simpl in *. unfold payable.
    rewrite deposit_eq. destruct (v >? 0); [|discriminate].
    intros [= _ <-]. apply invariant_log_event, invariant_credit; [|exact Hw].
    apply is_uint256_nonneg, Hv.
  - (* withdraw *)
    intros to a r IH sender w u w' Hv Hw. simpl in *.
    apply andb_prop in Hv as [_ Hr]. rewrite withdraw_eq.
    destruct (negb (sender =? owner w)); [discriminate|].
    destruct (to =? address_zero); [discriminate|].
    destruct (negb (balance w >=? a)); [discriminate|].
    destruct (call_value (react r) to a w) as [[[|] w1]|reason] eqn:E;
      try discriminate.
    intros [= _ <-]. apply invariant_log_event.
    apply (call_value_invariant _ _ _ _ _ _ (fun w1 w2 => IH w1 w2 Hr) Hw E).
  - (* withdrawAll *)
    intros to r IH sender w u w' Hr Hw. simpl in *. rewrite withdrawAll_eq.
    destruct (negb (sender =? owner w)); [discriminate|].
    destruct (negb (balance w >? 0)); [discriminate|].
    destruct (to =? address_zero); [discriminate|].
    destruct (call_value (react r) to (balance w) w) as [[[|] w1]|reason] eqn:E;
      try discriminate.
    intros [= _ <-]. apply invariant_log_event.
    apply (call_value_invariant _ _ _ _ _ _ (fun w1 w2 => IH w1 w2 Hr) Hw E).
  - (* getBalance *)
    intros sender w u w' _ Hw. simpl. unfold_exec. intros [= _ <-]. exact Hw.
  - (* owner *)
    intros sender w u w' _ Hw. simpl. unfold_exec. intros [= _ <-]. exact Hw.
  - (* plain transfer *)
    intros v sender w u w' Hv Hw. simpl in *. unfold_exec.
    intros [= _ <-]. apply invariant_log_event, invariant_credit; [|exact Hw].
    apply is_uint256_nonneg, Hv.
  - intros w w' _ Hw [= <-]. exact Hw.
  - intros w w' _ _ [=].
  - intros sender c IHc next IHn w w' Hv Hw. simpl in *.
    apply andb_prop in Hv as [Hc Hn]. apply IHn; [exact Hn|].
    unfold attempt. destruct (dispatch c sender w) as [[u w1]|reason] eqn:E.
    + apply (IHc sender w u w1 Hc Hw E).
    + exact Hw.
Qed.

Lemma transact_invariant w sender c :
  valid_call c = true -> invariant w -> invariant (fst (transact w sender c)).
Proof.
  intros Hc Hw. unfold transact.
  destruct (dispatch c sender w) as [[u w']|reason] eqn:E; simpl.
  - apply (proj1 dispatch_react_invariant c sender w u w' Hc Hw E).
  - exact Hw.
Qed.

(** ** Shared facts about transactions *)

Lemma eqb_owner w : (owner w =? owner w) = true.
Proof. apply Z.eqb_refl. Qed.

Lemma eqb_other (a b : Z) : a <> b -> (a =? b) = false.
Proof. intros H. apply Z.eqb_neq, H. Qed.

(** A restricted call by the owner is never turned away by [onlyOwner]. *)
Lemma owner_passes_gate w c :
  restricted c = true -> snd (transact w (owner w) c) <> Failed Unauthorized.
Proof.
  destruct c as [n|v|to a r|to r| | |v]; simpl; try discriminate; intros _;
    unfold transact; simpl dispatch.
  - rewrite changeOwner_eq, eqb_owner. simpl.
    destruct (n =? address_zero); simpl; discriminate.
  - rewrite withdraw_eq, eqb_owner. simpl.
    destruct (to =? address_zero); simpl; [discriminate|].
    destruct (negb (balance w >=? a)); simpl; [discriminate|].
    destruct (call_value_total (react r) to a w) as [[|] [w' ->]];
      simpl; discriminate.
  - rewrite withdrawAll_eq, eqb_owner. simpl.
    destruct (negb (balance w >? 0)); simpl; [discriminate|].
    destruct (to =? address_zero); simpl; [discriminate|].
    destruct (call_value_total (react r) to (balance w) w) as [[|] [w' ->]];
      simpl; discriminate.
Qed.

(** ** Withdrawal *)

(** C1, as stated, fails when the recipient is the wallet itself: the owner
    withdraws 4 of 10 to address 99, the wallet's own [receive] accepts, the
    call succeeds, and the balance is still 10. *)
Lemma withdraw_to_self_counterexample :
  1 = owner funded /\ 99 <> address_zero /\ 0 <= 4 <= balance funded /\
  recipient_accepts funded 99 Accept = true /\
  transact funded 1 (CallWithdraw 99 4 Accept)
    = (mkWallet 99 1 10 [Deposited 99 4; Withdrawn 99 4], Success) /\
  ~ withdraw_debits funded 1 99 4 Accept.
Proof.
  repeat split; try (vm_compute; congruence).
  intros (w' & Ht & Hb & _). vm_compute in Ht.
  injection Ht as <-. vm_compute in Hb. discriminate.
Qed.

(** The same happens with a recipient that calls back into the wallet while
    it holds control: here recipient 3 deposits 1 before accepting, and the
    balance goes down by 3, not 4. *)
Lemma withdraw_reentrant_deposit_example :
  transact funded 1 (CallWithdraw 3 4 (Reenter 3 (CallDeposit 1) Accept))
    = (mkWallet 99 1 7 [Deposited 3 1; Withdrawn 3 4], Success).
Proof. reflexivity. Qed.

(** C1 (amended): for every wallet state, caller equal to the owner, non-null
    recipient [to] and amount [a <= balance], if the recipient accepts the
    transfer then [withdraw(to, a)] succeeds and [Withdrawn(to, a)] is the
    last event it logs; when moreover [to] is not the wallet's own address
    and the recipient's code leaves the wallet as it found it, the balance
    goes down by exactly [a], the owner is unchanged and [Withdrawn(to, a)]
    is the only event added. *)
Theorem withdraw_debits_exactly w sender to a r :
  sender = owner w -> to <> address_zero -> a <= balance w ->
  recipient_accepts w to r = true ->
  (exists w1, transact w sender (CallWithdraw to a r)
              = (log_event (Withdrawn to a) w1, Success)) /\
  (to <> this w -> react r (debit a w) = Some (debit a w) ->
   transact w sender (CallWithdraw to a r)
     = (mkWallet (this w) (owner w) (balance w - a)
                 (logs w ++ [Withdrawn to a]), Success) /\
   withdraw_debits w sender to a r).
Proof.
  intros -> Hto Ha Hacc.
  assert (E : transact w (owner w) (CallWithdraw to a r)
              = match call_value (react r) to a w with
                | Ok (true, w') => (log_event (Withdrawn to a) w', Success)
                | Ok (false, _) => (w, Failed TransferFailed)
                | Revert reason => (w, Failed reason)
                end).
  { unfold transact; simpl dispatch. rewrite withdraw_eq, eqb_owner.
    rewrite (eqb_other _ _ Hto). simpl. rewrite Z.geb_leb.
    destruct (Z.leb_spec a (balance w)); [simpl|lia].
    destruct (call_value (react r) to a w) as [[[|] w']|reason]; reflexivity. }
  rewrite E. split.
  - destruct (call_value_accepted w to a r Hacc Ha) as [w1 ->]. eauto.
  - intros Hself Hr.
    assert (E' : call_value (react r) to a w = Ok (true, debit a w)).
    { unfold call_value. destruct (Z.ltb_spec (balance w) a); [lia|].
      rewrite (eqb_other _ _ Hself), Hr. reflexivity. }
    split; [rewrite E'; reflexivity|].
    eexists. rewrite E, E'. split; [reflexivity|]. split; [reflexivity|].
    exists []. reflexivity.
Qed.

Lemma withdraw_debits_exactly_witness :
  transact funded 1 (CallWithdraw 3 4 Accept)
    = (mkWallet 99 1 6 [Withdrawn 3 4], Success).
Proof.
  assert (N : 3 <> address_zero) by (vm_compute; congruence).
  assert (L : 4 <= balance funded) by (vm_compute; congruence).
  destruct (withdraw_debits_exactly funded 1 3 4 Accept eq_refl N L eq_refl)
    as [_ H].
  apply H; [vm_compute; congruence | reflexivity].
Defined.

(** A withdrawal that succeeds had its transfer accepted. *)
Lemma withdraw_success_accepted w sender to a r w' :
  transact w sender (CallWithdraw to a r) = (w', Success) ->
  recipient_accepts w to r = true.
Proof.
  unfold transact; simpl dispatch. rewrite withdraw_eq.
  destruct (negb (sender =? owner w)); [discriminate|].
  destruct (to =? address_zero); [discriminate|].
  destruct (negb (balance w >=? a)); [discriminate|].
  destruct (call_value (react r) to a w) as [[[|] w1]|reason] eqn:E;
    try discriminate.
  intros _. apply (call_value_true w to a r w1 E).
Qed.

Lemma withdrawAll_success_accepted w sender to r w' :
  transact w sender (CallWithdrawAll to r) = (w', Success) ->
  recipient_accepts w to r = true.
Proof.
  unfold transact; simpl dispatch. rewrite withdrawAll_eq.
  destruct (negb (sender =? owner w)); [discriminate|].
  destruct (negb (balance w >? 0)); [discriminate|].
  destruct (to =? address_zero); [discriminate|].
  destruct (call_value (react r) to (balance w) w) as [[[|] w1]|reason] eqn:E;
    try discriminate.
  intros _. apply (call_value_true w to (balance w) r w1 E).
Qed.

(** C2: when the recipient rejects the transfer, [withdraw] and
    [withdrawAll] fail and the whole state (owner, balance, log) is as
    before, so nothing is debited and no [Withdrawn] is logged; when the call
    had passed its checks and reached the transfer the failure is
    [TransferFailed]; and a call that succeeds, which is the only way for
    its [Withdrawn] to be logged, had its transfer accepted. *)
Theorem rejected_transfer_reverts w sender to a r :
  (recipient_accepts w to r = false ->
   (exists reason,
       transact w sender (CallWithdraw to a r) = (w, Failed reason)) /\
   (exists reason,
       transact w sender (CallWithdrawAll to r) = (w, Failed reason)) /\
   (sender = owner w -> to <> address_zero -> a <= balance w ->
    transact w sender (CallWithdraw to a r) = (w, Failed TransferFailed)) /\
   (sender = owner w -> to <> address_zero -> 0 < balance w ->
    transact w sender (CallWithdrawAll to r) = (w, Failed TransferFailed))) /\
  (forall w', transact w sender (CallWithdraw to a r) = (w', Success) ->
              recipient_accepts w to r = true) /\
  (forall w', transact w sender (CallWithdrawAll to r) = (w', Success) ->
              recipient_accepts w to r = true).
Proof.
  split; [|split; intros w'; [apply withdraw_success_accepted
                             |apply withdrawAll_success_accepted]].
  intros Hrej. unfold transact; simpl dispatch.
  rewrite withdraw_eq, withdrawAll_eq, !call_value_rejected by exact Hrej.
  repeat split.
  - destruct (negb (sender =? owner w)); [eauto|].
    destruct (to =? address_zero); [eauto|].
    destruct (negb (balance w >=? a)); eauto.
  - destruct (negb (sender =? owner w)); [eauto|].
    destruct (negb (balance w >? 0)); [eauto|].
    destruct (to =? address_zero); eauto.
  - intros -> Hto Ha. rewrite eqb_owner, (eqb_other _ _ Hto). simpl.
    rewrite Z.geb_leb. destruct (Z.leb_spec a (balance w)); [reflexivity|lia].
  - intros -> Hto Hb. rewrite eqb_owner, (eqb_other _ _ Hto). simpl.
    rewrite Z.gtb_ltb. destruct (Z.ltb_spec 0 (balance w)); [reflexivity|lia].
Qed.

Lemma rejected_transfer_reverts_witness :
  transact funded 1 (CallWithdraw 3 4 (Reenter 3 (CallDeposit 1) Reject))
    = (funded, Failed TransferFailed) /\
  transact funded 1 (CallWithdrawAll 3 Reject)
    = (funded, Failed TransferFailed).
Proof.
  pose proof (proj1 (rejected_transfer_reverts funded 1 3 4
                (Reenter 3 (CallDeposit 1) Reject)) eq_refl) as (_ & _ & H & _).
  pose proof (proj1 (rejected_transfer_reverts funded 1 3 4 Reject) eq_refl)
    as (_ & _ & _ & H').
  split; [apply H | apply H']; try reflexivity; vm_compute; congruence.
Defined.

(** ** Authorization *)

(** [onlyOwner] turns away every other caller before the body runs. *)
Lemma gate_rejects w sender c :
  sender <> owner w -> restricted c = true ->
  transact w sender c = (w, Failed Unauthorized).
Proof.
  intros Hs. pose proof (eqb_other _ _ Hs) as E.
  destruct c as [n|v|to a r|to r| | |v]; simpl; try discriminate; intros _;
    unfold transact; simpl dispatch.
  - rewrite changeOwner_eq, E. reflexivity.
  - rewrite withdraw_eq, E. reflexivity.
  - rewrite withdrawAll_eq, E. reflexivity.
Qed.

(** C3: a caller that is not the owner gets [Unauthorized] from [withdraw],
    [withdrawAll] and [changeOwner], and the state (owner, balance, log) is
    unchanged, whatever the arguments and whatever the recipient would do. *)
Theorem non_owner_unauthorized w sender c :
  sender <> owner w -> restricted c = true ->
  transact w sender c = (w, Failed Unauthorized) /\
  owner (fst (transact w sender c)) = owner w /\
  balance (fst (transact w sender c)) = balance w /\
  logs (fst (transact w sender c)) = logs w.
Proof.
  intros Hs Hc. rewrite (gate_rejects w sender c Hs Hc). repeat split.
Qed.

Lemma non_owner_unauthorized_witness :
  transact funded 2 (CallWithdraw 3 1 Accept) = (funded, Failed Unauthorized) /\
  transact funded 2 (CallWithdrawAll 3 Accept) = (funded, Failed Unauthorized) /\
  transact funded 2 (CallChangeOwner 2) = (funded, Failed Unauthorized).
Proof.
  assert (N : 2 <> owner funded) by (vm_compute; congruence).
  split; [|split].
  - apply (proj1 (non_owner_unauthorized funded 2 (CallWithdraw 3 1 Accept)
                    N eq_refl)).
  - apply (proj1 (non_owner_unauthorized funded 2 (CallWithdrawAll 3 Accept)
                    N eq_refl)).
  - apply (proj1 (non_owner_unauthorized funded 2 (CallChangeOwner 2)
                    N eq_refl)).
Defined.

(** ** Insufficient balance *)

(** C4: for the owner and a non-null recipient, [withdraw(to, a)] with
    [a] above the balance fails with [InsufficientBalance] and changes
    nothing.  After a first [withdraw(to, a)] (whatever its outcome) has left
    a balance below [a], the same call once more fails and changes nothing:
    sufficiency is checked again, against the balance the first call left,
    and the failure is [InsufficientBalance] as long as the caller is still
    the owner. *)
Theorem withdraw_rechecks_balance w sender to a r :
  sender = owner w -> to <> address_zero ->
  (balance w < a ->
   transact w sender (CallWithdraw to a r) = (w, Failed InsufficientBalance)) /\
  (forall w1,
      w1 = fst (transact w sender (CallWithdraw to a r)) ->
      balance w1 < a ->
      (exists reason,
          transact w1 sender (CallWithdraw to a r) = (w1, Failed reason)) /\
      (sender = owner w1 ->
       transact w1 sender (CallWithdraw to a r)
         = (w1, Failed InsufficientBalance))).
Proof.
  intros Hs Hto.
  assert (G : forall w0, balance w0 < a ->
     (exists reason,
         transact w0 sender (CallWithdraw to a r) = (w0, Failed reason)) /\
     (sender = owner w0 ->
      transact w0 sender (CallWithdraw to a r)
        = (w0, Failed InsufficientBalance))).
  { intros w0 Hb. unfold transact; simpl dispatch. rewrite withdraw_eq.
    rewrite (eqb_other _ _ Hto), Z.geb_leb.
    destruct (Z.leb_spec a (balance w0)); [lia|]. simpl.
    split.
    - destruct (negb (sender =? owner w0)); eauto.
    - intros ->. rewrite eqb_owner. reflexivity. }
  split.
  - intros Hb. apply (proj2 (G w Hb) Hs).
  - intros w1 _ Hb. apply (G w1 Hb).
Qed.

Lemma withdraw_rechecks_balance_witness :
  transact funded 1 (CallWithdraw 3 11 Accept)
    = (funded, Failed InsufficientBalance) /\
  transact (mkWallet 99 1 4 [Withdrawn 3 6]) 1 (CallWithdraw 3 6 Accept)
    = (mkWallet 99 1 4 [Withdrawn 3 6], Failed InsufficientBalance).
Proof.
  split.
  - apply (proj1 (withdraw_rechecks_balance funded 1 3 11 Accept
                    eq_refl ltac:(vm_compute; congruence))).
    reflexivity.
  - apply (proj2 (withdraw_rechecks_balance funded 1 3 6 Accept
                    eq_refl ltac:(vm_compute; congruence))
             (mkWallet 99 1 4 [Withdrawn 3 6])); reflexivity.
Defined.

(** ** [withdrawAll] against [withdraw] *)

(** C5, as stated for every caller, fails for a caller that is not the
    owner: on the empty wallet owned by 1, [withdrawAll(3)] by 2 fails with
    [Unauthorized], not [NoBalance]. *)
Lemma withdrawAll_empty_counterexample :
  balance empty = 0 /\
  transact empty 2 (CallWithdrawAll 3 Accept) = (empty, Failed Unauthorized) /\
  ~ withdrawAll_empty_NoBalance empty 2 3 Accept.
Proof.
  repeat split. intros H. specialize (H eq_refl). vm_compute in H. congruence.
Qed.

(** C5 (amended): for every state, caller, recipient and recipient
    behaviour, [withdrawAll(to)] runs as the owner check, then the check
    [balance > 0], then [withdraw(to, b)] at the observed balance [b].  So
    with a positive balance it gives the same state, events and failure as
    [withdraw(to, b)]; on an empty wallet it fails with [NoBalance] for the
    owner and with [Unauthorized], as [withdraw] does, for anyone else. *)
Theorem withdrawAll_refines_withdraw w sender to r :
  dispatch (CallWithdrawAll to r) sender w
    = withdrawAll_spec (call_value (react r)) sender to w /\
  (0 < balance w ->
   transact w sender (CallWithdrawAll to r)
     = transact w sender (CallWithdraw to (balance w) r)) /\
  (balance w = 0 ->
   transact w sender (CallWithdrawAll to r)
     = (w, Failed (if sender =? owner w then NoBalance else Unauthorized))) /\
  (balance w = 0 -> sender <> owner w ->
   transact w sender (CallWithdrawAll to r)
     = transact w sender (CallWithdraw to (balance w) r)).
Proof.
  repeat split.
  - simpl dispatch. rewrite withdrawAll_eq. unfold withdrawAll_spec.
    unfold bind at 1 2 3; unfold onlyOwner, read_owner, self_balance, bind, require.
    destruct (sender =? owner w) eqn:E; simpl; [|reflexivity].
    destruct (balance w >? 0) eqn:Eb; simpl; [|reflexivity].
    rewrite withdraw_eq, E. simpl. rewrite Z.geb_leb, Z.leb_refl. reflexivity.
  - intros Hb. unfold transact; simpl dispatch.
    rewrite withdrawAll_eq, withdraw_eq, Z.gtb_ltb, Z.geb_leb, Z.leb_refl.
    destruct (Z.ltb_spec 0 (balance w)); [reflexivity|lia].
  - intros Hb. unfold transact; simpl dispatch.
    rewrite withdrawAll_eq, Hb. destruct (sender =? owner w); reflexivity.
  - intros Hb Hs. unfold transact; simpl dispatch.
    rewrite withdrawAll_eq, withdraw_eq, (eqb_other _ _ Hs). reflexivity.
Qed.

Lemma withdrawAll_refines_withdraw_witness :
  transact funded 1 (CallWithdrawAll 3 Accept)
    = (mkWallet 99 1 0 [Withdrawn 3 10], Success) /\
  transact empty 1 (CallWithdrawAll 3 Accept) = (empty, Failed NoBalance) /\
  transact empty 2 (CallWithdrawAll 3 Accept)
    = transact empty 2 (CallWithdraw 3 0 Accept).
Proof.
  destruct (withdrawAll_refines_withdraw funded 1 3 Accept) as (_ & H1 & _).
  destruct (withdrawAll_refines_withdraw empty 1 3 Accept) as (_ & _ & H2 & _).
  destruct (withdrawAll_refines_withdraw empty 2 3 Accept) as (_ & _ & _ & H3).
  split; [|split].
  - rewrite H1; [reflexivity | vm_compute; reflexivity].
  - rewrite H2; reflexivity.
  - apply H3; [reflexivity | vm_compute; congruence].
Defined.

(** ** Ownership *)

(** C6: called by the owner, [changeOwner(address(0))] fails with
    [InvalidRecipient] and changes nothing; [changeOwner(X)] with [X]
    non-null succeeds, sets [owner] to [X], leaves the balance alone and logs
    [OwnerChanged(old, X)] with the owner from before the assignment; in the
    resulting state, and in every state in which [X] is still the owner, no
    restricted call by [X] is turned away as [Unauthorized], and every
    restricted call by the old owner, when it is not [X] itself, is. *)
Theorem changeOwner_transfers w sender X :
  sender = owner w ->
  (X = address_zero ->
   transact w sender (CallChangeOwner X) = (w, Failed InvalidRecipient)) /\
  (X <> address_zero ->
   let w' := mkWallet (this w) X (balance w)
                      (logs w ++ [OwnerChanged (owner w) X]) in
   transact w sender (CallChangeOwner X) = (w', Success) /\
   forall w2 c, owner w2 = owner w' -> restricted c = true ->
     snd (transact w2 X c) <> Failed Unauthorized /\
     (owner w <> X -> transact w2 (owner w) c = (w2, Failed Unauthorized))).
Proof.
  intros ->. split.
  - intros ->. unfold transact; simpl dispatch.
    rewrite changeOwner_eq, eqb_owner. reflexivity.
  - intros HX w'. split.
    + unfold transact; simpl dispatch.
      rewrite changeOwner_eq, eqb_owner, (eqb_other _ _ HX). reflexivity.
    + intros w2 c Ho Hc. simpl in Ho. subst X. split.
      * apply (owner_passes_gate w2 c Hc).
      * intros Hold. apply (gate_rejects w2 (owner w) c); [exact Hold|exact Hc].
Qed.

Lemma changeOwner_transfers_witness :
  transact funded 1 (CallChangeOwner 0) = (funded, Failed InvalidRecipient) /\
  transact funded 1 (CallChangeOwner 2)
    = (mkWallet 99 2 10 [OwnerChanged 1 2], Success) /\
  transact (mkWallet 99 2 10 [OwnerChanged 1 2]) 1 (CallWithdraw 3 1 Accept)
    = (mkWallet 99 2 10 [OwnerChanged 1 2], Failed Unauthorized).
Proof.
  destruct (changeOwner_transfers funded 1 0 eq_refl) as [H0 _].
  destruct (changeOwner_transfers funded 1 2 eq_refl) as [_ H2].
  assert (N : 2 <> address_zero) by (vm_compute; congruence).
  destruct (H2 N) as [Hok Hnext].
  split; [apply H0; reflexivity|]. split; [exact Hok|].
  apply (Hnext (mkWallet 99 2 10 [OwnerChanged 1 2])
               (CallWithdraw 3 1 Accept) eq_refl eq_refl).
  vm_compute; congruence.
Defined.

(** ** Invariants *)

(** C7: every state reachable from construction (by a non-null creator) by
    transactions has a non-null owner and a non-negative balance, and every
    transaction, successful or failed, re-entrant calls of the recipient
    included, preserves the two predicates. *)
Theorem reachable_invariant :
  (forall w, reachable w -> invariant w) /\
  (forall w sender c,
      valid_call c = true -> invariant w ->
      invariant (fst (transact w sender c))).
Proof.
  split.
  - induction 1 as [self creator endowment Hc He|w sender c Hw IH Hc].
    + split; simpl; assumption.
    + apply transact_invariant; assumption.
  - intros w sender c Hc Hw. apply transact_invariant; assumption.
Qed.

Lemma reachable_invariant_witness :
  invariant (fst (transact (fst (transact empty 2 (CallDeposit 10)))
                    1 (CallWithdraw 1 4 (Reenter 1 (CallWithdrawAll 1 Accept) Accept)))).
Proof.
  apply (proj1 reachable_invariant).
  apply reach_transact; [|reflexivity].
  apply reach_transact; [|reflexivity].
  apply reach_constructor; vm_compute; congruence.
Defined.

(** ** Deposits *)

(** C8: for every caller, [deposit()] with no value attached fails with
    [ZeroValue] and changes nothing; with a positive value [v] it succeeds,
    the balance goes up by exactly [v] and exactly [Deposited(sender, v)] is
    logged. *)
Theorem deposit_credits w sender v :
  (v = 0 -> transact w sender (CallDeposit v) = (w, Failed ZeroValue)) /\
  (0 < v ->
   transact w sender (CallDeposit v)
     = (mkWallet (this w) (owner w) (balance w + v)
                 (logs w ++ [Deposited sender v]), Success)).
Proof.
  unfold transact; simpl dispatch. unfold payable. rewrite deposit_eq, Z.gtb_ltb.
  split.
  - intros ->. reflexivity.
  - intros Hv. destruct (Z.ltb_spec 0 v); [reflexivity|lia].
Qed.

Lemma deposit_credits_witness :
  transact empty 2 (CallDeposit 0) = (empty, Failed ZeroValue) /\
  transact empty 2 (CallDeposit 10)
    = (mkWallet 99 1 10 [Deposited 2 10], Success).
Proof.
  split.
  - apply (proj1 (deposit_credits empty 2 0)). reflexivity.
  - apply (proj2 (deposit_credits empty 2 10)). reflexivity.
Defined.

(** C9, as stated for every sender, fails when the sender is the wallet
    itself: in [withdraw(address(this), 4)] the wallet's low-level call is a
    plain transfer of 4 from address 99 to address 99; [receive] accepts it
    and logs [Deposited(99, 4)], and the balance is 10 as before, not 14. *)
Lemma plain_transfer_from_self_counterexample :
  99 = this funded /\
  call_value (react Accept) 99 4 funded
    = Ok (true, mkWallet 99 1 10 [Deposited 99 4]) /\
  plain_transfer 99 4 funded = Some (mkWallet 99 1 10 [Deposited 99 4]) /\
  ~ plain_transfer_credits funded 99 4.
Proof.
  repeat split. intros (w' & Ht & Hb & _). vm_compute in Ht.
  injection Ht as <-. vm_compute in Hb. discriminate.
Qed.

(** C9 (amended): a plain value transfer to the wallet by any sender other
    than the wallet itself is accepted through [receive] for every value,
    zero included: the balance goes up by the value and
    [Deposited(sender, v)] is logged; with value 0 the event
    [Deposited(sender, 0)] is logged, while [deposit()] with value 0 is
    rejected.  When the sender is the wallet itself (its own low-level call
    to its own address, with a value it holds) the transfer is accepted and
    [Deposited(wallet, v)] is logged, and the balance is unchanged. *)
Theorem plain_transfer_accepted w sender v :
  (sender <> this w ->
   plain_transfer sender v w
     = Some (mkWallet (this w) (owner w) (balance w + v)
                      (logs w ++ [Deposited sender v])) /\
   transact w sender (Transfer v)
     = (mkWallet (this w) (owner w) (balance w + v)
                 (logs w ++ [Deposited sender v]), Success) /\
   logs (fst (transact w sender (Transfer 0)))
     = (logs w ++ [Deposited sender 0])%list /\
   transact w sender (CallDeposit 0) = (w, Failed ZeroValue)) /\
  (sender = this w -> v <= balance w ->
   plain_transfer sender v w
     = Some (mkWallet (this w) (owner w) (balance w)
                      (logs w ++ [Deposited sender v])) /\
   forall recipient_code,
     call_value recipient_code sender v w
       = Ok (true, mkWallet (this w) (owner w) (balance w)
                            (logs w ++ [Deposited sender v]))).
Proof.
  split.
  - intros Hs. unfold plain_transfer. rewrite (eqb_other _ _ Hs).
    repeat split.
  - intros -> Hv. unfold plain_transfer, call_value. rewrite Z.eqb_refl.
    destruct (Z.ltb_spec (balance w) v); [lia|].
    unfold_exec. unfold log_event, credit, debit; simpl.
    replace (balance w - v + v) with (balance w) by lia.
    split; [reflexivity|]. intros _. reflexivity.
Qed.

Lemma plain_transfer_accepted_witness :
  transact funded 2 (Transfer 0)
    = (mkWallet 99 1 10 [Deposited 2 0], Success) /\
  plain_transfer 99 4 funded = Some (mkWallet 99 1 10 [Deposited 99 4]).
Proof.
  destruct (plain_transfer_accepted funded 2 0) as [H1 _].
  destruct (plain_transfer_accepted funded 99 4) as [_ H2].
  split.
  - apply H1. vm_compute; congruence.
  - apply H2; [reflexivity | vm_compute; congruence].
Defined.

(** ** Order of the checks *)

(** C10: called by the owner on a wallet with balance 0, [withdrawAll(to)]
    fails with [NoBalance] for every recipient, the null one included: the
    balance is checked before the recipient.  [withdraw] checks the recipient
    first: with the null recipient it fails with [InvalidRecipient] whatever
    the amount, also one above the balance. *)
Theorem withdrawAll_checks_balance_first w sender to a r :
  sender = owner w -> balance w = 0 ->
  transact w sender (CallWithdrawAll to r) = (w, Failed NoBalance) /\
  transact w sender (CallWithdrawAll address_zero r) = (w, Failed NoBalance) /\
  transact w sender (CallWithdraw address_zero a r)
    = (w, Failed InvalidRecipient).
Proof.
  intros -> Hb. unfold transact; simpl dispatch.
  rewrite !withdrawAll_eq, withdraw_eq, eqb_owner, Hb. repeat split.
Qed.

Lemma withdrawAll_checks_balance_first_witness :
  transact empty 1 (CallWithdrawAll 3 Accept) = (empty, Failed NoBalance) /\
  transact empty 1 (CallWithdrawAll address_zero Accept)
    = (empty, Failed NoBalance) /\
  transact empty 1 (CallWithdraw address_zero 5 Accept)
    = (empty, Failed InvalidRecipient).
Proof.
  apply (withdrawAll_checks_balance_first empty 1 3 5 Accept); reflexivity.
Defined.

(** ** The end-to-end scenario of the specification

    Created by 1 with balance 0; 2 deposits 10; 1 withdraws 4 to 3; 2 tries
    to withdraw 1 to 3; 1 withdraws everything to 3. *)
Example end_to_end_scenario :
  let s1 := fst (transact empty 2 (CallDeposit 10)) in
  let s2 := fst (transact s1 1 (CallWithdraw 3 4 Accept)) in
  s1 = mkWallet 99 1 10 [Deposited 2 10] /\
  s2 = mkWallet 99 1 6 [Deposited 2 10; Withdrawn 3 4] /\
  transact s2 2 (CallWithdraw 3 1 Accept) = (s2, Failed Unauthorized) /\
  transact s2 1 (CallWithdrawAll 3 Accept)
    = (mkWallet 99 1 0 [Deposited 2 10; Withdrawn 3 4; Withdrawn 3 6], Success).
Proof. repeat split. Qed.

(** ** The log accounts for the state *)

Lemma owner_chain_app o evs1 evs2 :
  owner_chain o (evs1 ++ evs2)
    = match owner_chain o evs1 with
      | Some o' => owner_chain o' evs2
      | None => None
      end.
Proof.
  revert o. induction evs1 as [|e evs1 IH]; intros o; simpl; [reflexivity|].
  destruct e as [f v|t v|old n]; try apply IH.
  destruct (old =? o); [apply IH|reflexivity].
Qed.

Lemma net_flow_app evs1 evs2 :
  net_flow (evs1 ++ evs2) = net_flow evs1 + net_flow evs2.
Proof.
  induction evs1 as [|e evs1 IH]; [reflexivity|].
  simpl app. change (net_value e + net_flow (evs1 ++ evs2)
                     = net_value e + net_flow evs1 + net_flow evs2).
  rewrite IH. lia.
Qed.

Lemma effect_refl w : effect 0 w w.
Proof.
  exists []. rewrite app_nil_r. simpl. repeat split. lia.
Qed.

Lemma effect_trans d1 d2 w w1 w2 :
  effect d1 w w1 -> effect d2 w1 w2 -> effect (d1 + d2) w w2.
Proof.
  intros (e1 & L1 & O1 & B1 & T1) (e2 & L2 & O2 & B2 & T2).
  exists (e1 ++ e2)%list. repeat split.
  - rewrite L2, L1, app_assoc. reflexivity.
  - rewrite owner_chain_app, O1. exact O2.
  - rewrite net_flow_app. lia.
  - congruence.
Qed.

Lemma effect_shift d d' w w' : d = d' -> effect d w w' -> effect d' w w'.
Proof. intros ->. exact (fun H => H). Qed.

Lemma effect_credit v w : effect v w (credit v w).
Proof. exists []. simpl. rewrite app_nil_r. repeat split. lia. Qed.

Lemma effect_debit v w : effect (- v) w (debit v w).
Proof. exists []. simpl. rewrite app_nil_r. repeat split. lia. Qed.

Lemma effect_deposited s v w : effect (- v) w (log_event (Deposited s v) w).
Proof. exists [Deposited s v]. simpl. repeat split. lia. Qed.

Lemma effect_withdrawn t v w : effect v w (log_event (Withdrawn t v) w).
Proof. exists [Withdrawn t v]. simpl. repeat split. lia. Qed.

Lemma effect_owner_changed n w :
  effect 0 w (set_owner n (log_event (OwnerChanged (owner w) n) w)).
Proof.
  exists [OwnerChanged (owner w) n]. simpl. rewrite Z.eqb_refl.
  repeat split. lia.
Qed.

(** A transfer that went through took [v] out of the account, whatever the
    recipient did while it held control. *)
Lemma call_value_effect f to v w w' :
  (forall w1 w2, f w1 = Some w2 -> effect 0 w1 w2) ->
  call_value f to v w = Ok (true, w') -> effect (- v) w w'.
Proof.
  intros Hf. unfold call_value.
  destruct (balance w <? v); [discriminate|].
  destruct (to =? this w).
  - unfold_exec. intros [= <-].
    apply (effect_shift (- v + (v + - v))); [lia|].
    apply (effect_trans _ _ _ (debit v w)); [apply effect_debit|].
    apply (effect_trans _ _ _ (credit v (debit v w))); [apply effect_credit|].
    apply effect_deposited.
  - destruct (f (debit v w)) as [w2|] eqn:E; [|discriminate].
    intros [= <-]. apply (effect_shift (- v + 0)); [lia|].
    apply (effect_trans _ _ _ (debit v w)); [apply effect_debit|].
    apply (Hf _ _ E).
Qed.

Lemma dispatch_react_effect :
  (forall c sender w u w', dispatch c sender w = Ok (u, w') -> effect 0 w w') /\
  (forall r w w', react r w = Some w' -> effect 0 w w').
Proof.
  apply call_reaction_ind.
  - intros n sender w u w'. simpl. rewrite changeOwner_eq.
    destruct (negb (sender =? owner w)); [discriminate|].
    destruct (n =? address_zero); [discriminate|].
    intros [= _ <-]. apply effect_owner_changed.
  - intros v sender w u w'. simpl. unfold payable. rewrite deposit_eq.
    destruct (v >? 0); [|discriminate]. intros [= _ <-].
    apply (effect_shift (v + - v)); [lia|].
    apply (effect_trans _ _ _ (credit v w)); [apply effect_credit|].
    apply effect_deposited.
  - intros to a r IH sender w u w'. simpl. rewrite withdraw_eq.
    destruct (negb (sender =? owner w)); [discriminate|].
    destruct (to =? address_zero); [discriminate|].
    destruct (negb (balance w >=? a)); [discriminate|].
    destruct (call_value (react r) to a w) as [[[|] w1]|reason] eqn:E;
      try discriminate.
    intros [= _ <-]. apply (effect_shift (- a + a)); [lia|].
    apply (effect_trans _ _ _ w1); [|apply effect_withdrawn].
    apply (call_value_effect _ _ _ _ _ IH E).
  - intros to r IH sender w u w'. simpl. rewrite withdrawAll_eq.
    destruct (negb (sender =? owner w)); [discriminate|].
    destruct (negb (balance w >? 0)); [discriminate|].
    destruct (to =? address_zero); [discriminate|].
    destruct (call_value (react r) to (balance w) w) as [[[|] w1]|reason] eqn:E;
      try discriminate.
    intros [= _ <-]. apply (effect_shift (- balance w + balance w)); [lia|].
    apply (effect_trans _ _ _ w1); [|apply effect_withdrawn].
    apply (call_value_effect _ _ _ _ _ IH E).
  - intros sender w u w'. simpl. unfold_exec. intros [= _ <-]. apply effect_refl.
  - intros sender w u w'. simpl. unfold_exec. intros [= _ <-]. apply effect_refl.
  - intros v sender w u w'. simpl. unfold_exec. intros [= _ <-].
    apply (effect_shift (v + - v)); [lia|].
    apply (effect_trans _ _ _ (credit v w)); [apply effect_credit|].
    apply (effect_deposited sender v (credit v w)).
  - intros w w' [= <-]. apply effect_refl.
  - intros w w' [=].
  - intros sender c IHc next IHn w w'. simpl. intros H.
    apply (effect_shift (0 + 0)); [lia|].
    apply (effect_trans _ _ _ (attempt (dispatch c sender) w));
      [|apply (IHn _ _ H)].
    unfold attempt. destruct (dispatch c sender w) as [[u w1]|reason] eqn:E.
    + apply (IHc sender w u w1 E).
    + apply effect_refl.
Qed.

Lemma transact_effect w sender c : effect 0 w (fst (transact w sender c)).
Proof.
  unfold transact. destruct (dispatch c sender w) as [[u w']|reason] eqn:E; simpl.
  - apply (proj1 dispatch_react_effect c sender w u w' E).
  - apply effect_refl.
Qed.

Lemma run_effect txs : forall w, effect 0 w (run w txs).
Proof.
  induction txs as [|[sender c] txs IH]; intros w; simpl.
  - apply effect_refl.
  - apply (effect_shift (0 + 0)); [lia|].
    apply (effect_trans _ _ _ (fst (transact w sender c)));
      [apply transact_effect|apply IH].
Qed.

(** X1: nothing happens to the wallet that its log does not show.  Over
    any sequence of transactions, failed ones and re-entrant calls included,
    the log only grows at its end, and when it has not grown the owner, the
    balance and the address are exactly as before: every call that changes
    the owner or the balance logs an event. *)
Theorem no_silent_change w txs :
  (exists evs, logs (run w txs) = (logs w ++ evs)%list) /\
  (logs (run w txs) = logs w -> run w txs = w).
Proof.
  destruct (run_effect txs w) as (evs & L & O & B & T).
  split; [exists evs; exact L|]. intros E.
  assert (evs = []) as ->.
  { rewrite E in L. rewrite <- (app_nil_r (logs w)) in L at 1.
    apply app_inv_head in L. symmetry; exact L. }
  simpl in O, B. injection O as O.
  destruct w as [t o b l], (run (mkWallet t o b l) txs) as [t' o' b' l'].
  simpl in *. f_equal; try lia; congruence.
Qed.

Lemma no_silent_change_witness :
  run funded [(2, CallDeposit 0); (2, CallWithdrawAll 2 Accept);
              (1, CallWithdraw 3 11 Accept); (3, CallGetBalance)] = funded.
Proof.
  apply (proj2 (no_silent_change funded
           [(2, CallDeposit 0); (2, CallWithdrawAll 2 Accept);
            (1, CallWithdraw 3 11 Accept); (3, CallGetBalance)])).
  reflexivity.
Defined.

(** X2: after any sequence of transactions on a wallet created by
    [creator], the [OwnerChanged] events of the log form a chain that starts
    at the creator, in which every event names as [oldOwner] the owner held
    until then, and that ends at the current owner. *)
Theorem owner_read_from_log self creator endowment txs :
  owner_chain creator (logs (run (constructor self creator endowment) txs))
    = Some (owner (run (constructor self creator endowment) txs)).
Proof.
  destruct (run_effect txs (constructor self creator endowment))
    as (evs & L & O & _ & _).
  rewrite L. exact O.
Qed.

(** X3: after any sequence of transactions (value reaching the wallet only
    through [deposit] and plain transfers), the balance is the balance held at
    construction plus all amounts logged as [Deposited] minus all amounts
    logged as [Withdrawn]; a withdrawal to the wallet itself is logged on
    both sides. *)
Theorem balance_read_from_log self creator endowment txs :
  balance (run (constructor self creator endowment) txs)
    = endowment
      + net_flow (logs (run (constructor self creator endowment) txs)).
Proof.
  destruct (run_effect txs (constructor self creator endowment))
    as (evs & L & _ & B & _).
  rewrite L, B. simpl. lia.
Qed.

(** ** What a caller other than the owner can do *)

Lemma attempt_transact c sender w :
  attempt (dispatch c sender) w = fst (transact w sender c).
Proof.
  unfold attempt, transact.
  destruct (dispatch c sender w) as [[u w']|reason]; reflexivity.
Qed.

Lemma outsider_transact w sender c :
  sender <> owner w -> valid_call c = true ->
  owner (fst (transact w sender c)) = owner w /\
  balance w <= balance (fst (transact w sender c)).
Proof.
  intros Hs Hv.
  destruct (restricted c) eqn:R.
  { rewrite (gate_rejects w sender c Hs R). simpl. split; [reflexivity|lia]. }
  destruct c as [n|v|to a r|to r| | |v]; try discriminate R;
    unfold transact; simpl dispatch.
  - unfold payable. rewrite deposit_eq. simpl in Hv.
    apply is_uint256_nonneg in Hv.
    destruct (v >? 0); simpl; split; try reflexivity; lia.
  - unfold_exec. simpl. split; [reflexivity|lia].
  - unfold_exec. simpl. split; [reflexivity|lia].
  - unfold_exec. simpl in *. apply is_uint256_nonneg in Hv.
    split; [reflexivity|lia].
Qed.

Lemma react_outsiders r :
  forall w w', outsiders (owner w) r = true -> react r w = Some w' ->
               owner w' = owner w /\ balance w <= balance w'.
Proof.
  induction r as [| |s c next IH]; simpl; intros w w' Ho H.
  - injection H as <-. split; [reflexivity|lia].
  - discriminate.
  - apply andb_prop in Ho as [Ho Hn]. apply andb_prop in Ho as [Hs Hc].
    apply negb_true_iff, Z.eqb_neq in Hs.
    rewrite attempt_transact in H.
    destruct (outsider_transact w s c Hs Hc) as [Eo Eb].
    rewrite <- Eo in Hn. destruct (IH _ _ Hn H) as [Eo' Eb'].
    split; [congruence|lia].
Qed.

(** X4: a transaction whose sender is not the owner, whatever it calls,
    never changes the owner and never lowers the balance. *)
Theorem outsider_cannot_take w sender c :
  sender <> owner w -> valid_call c = true ->
  owner (fst (transact w sender c)) = owner w /\
  balance w <= balance (fst (transact w sender c)).
Proof. apply outsider_transact. Qed.

Lemma outsider_cannot_take_witness :
  owner (fst (transact funded 2 (CallWithdrawAll 2 Accept))) = owner funded /\
  balance funded <= balance (fst (transact funded 2 (CallWithdrawAll 2 Accept))).
Proof.
  apply (outsider_cannot_take funded 2 (CallWithdrawAll 2 Accept));
    [vm_compute; congruence | reflexivity].
Defined.

(** X5: re-entrancy cannot take more than the amount.  When the owner calls
    [withdraw(to, a)] and every call the recipient makes back into the wallet
    comes from a sender other than the owner, the owner is unchanged and the
    balance afterwards is at least [balance - a], whether the call succeeds
    or fails. *)
Theorem reentrancy_bounded w sender to a r :
  sender = owner w -> 0 <= a -> outsiders (owner w) r = true ->
  owner (fst (transact w sender (CallWithdraw to a r))) = owner w /\
  balance w - a <= balance (fst (transact w sender (CallWithdraw to a r))).
Proof.
  intros -> Ha Ho. unfold transact; simpl dispatch. rewrite withdraw_eq.
  destruct (negb (owner w =? owner w)); simpl; [split; [reflexivity|lia]|].
  destruct (to =? address_zero); simpl; [split; [reflexivity|lia]|].
  destruct (negb (balance w >=? a)); simpl; [split; [reflexivity|lia]|].
  unfold call_value.
  destruct (balance w <? a); simpl; [split; [reflexivity|lia]|].
  destruct (to =? this w).
  - unfold_exec. simpl. split; [reflexivity|lia].
  - destruct (react r (debit a w)) as [w1|] eqn:E; simpl.
    + destruct (react_outsiders r (debit a w) w1 Ho E) as [Eo Eb].
      simpl in Eo, Eb. split; [exact Eo|exact Eb].
    + split; [reflexivity|lia].
Qed.

Lemma reentrancy_bounded_witness :
  owner (fst (transact funded 1
     (CallWithdraw 3 4 (Reenter 3 (CallWithdrawAll 3 Accept)
                          (Reenter 3 (CallDeposit 1) Accept))))) = owner funded /\
  balance funded - 4 <= balance (fst (transact funded 1
     (CallWithdraw 3 4 (Reenter 3 (CallWithdrawAll 3 Accept)
                          (Reenter 3 (CallDeposit 1) Accept))))).
Proof.
  apply (reentrancy_bounded funded 1 3 4
           (Reenter 3 (CallWithdrawAll 3 Accept)
              (Reenter 3 (CallDeposit 1) Accept)));
    [reflexivity | vm_compute; congruence | reflexivity].
Defined.

(** ** How the operations compose *)

(** X6: [withdrawAll] by the owner to a non-null recipient other than the
    wallet, whose code accepts and leaves the wallet as it found it, empties
    the wallet and logs [Withdrawn(to, b)] with the balance [b] read at the
    start; any [withdrawAll] by the owner right after fails with
    [NoBalance]. *)
Theorem withdrawAll_drains w sender to r to' r' :
  sender = owner w -> to <> address_zero -> to <> this w ->
  0 < balance w ->
  react r (debit (balance w) w) = Some (debit (balance w) w) ->
  let w' := mkWallet (this w) (owner w) 0
                     (logs w ++ [Withdrawn to (balance w)]) in
  transact w sender (CallWithdrawAll to r) = (w', Success) /\
  transact w' sender (CallWithdrawAll to' r') = (w', Failed NoBalance).
Proof.
  intros -> Hto Hself Hb Hr w'. split.
  - unfold transact; simpl dispatch. rewrite withdrawAll_eq, eqb_owner.
    rewrite Z.gtb_ltb. destruct (Z.ltb_spec 0 (balance w)); [simpl|lia].
    rewrite (eqb_other _ _ Hto). unfold call_value.
    destruct (Z.ltb_spec (balance w) (balance w)); [lia|].
    rewrite (eqb_other _ _ Hself), Hr. unfold log_event, debit; simpl.
    rewrite Z.sub_diag. reflexivity.
  - unfold transact; simpl dispatch. rewrite withdrawAll_eq.
    simpl. rewrite Z.eqb_refl. reflexivity.
Qed.

Lemma withdrawAll_drains_witness :
  transact funded 1 (CallWithdrawAll 3 Accept)
    = (mkWallet 99 1 0 [Withdrawn 3 10], Success) /\
  transact (mkWallet 99 1 0 [Withdrawn 3 10]) 1 (CallWithdrawAll 3 Accept)
    = (mkWallet 99 1 0 [Withdrawn 3 10], Failed NoBalance).
Proof.
  apply (withdrawAll_drains funded 1 3 Accept 3 Accept);
    try reflexivity; vm_compute; congruence.
Defined.

(** X7: what anyone deposits the owner can take out again.  On a wallet
    with a non-negative balance, after [deposit()] with a positive value [v],
    [withdraw(to, v)] by the owner to a non-null recipient other than the
    wallet that accepts quietly succeeds and brings the balance back to what
    it was; the log gains [Deposited(from, v)] and [Withdrawn(to, v)]. *)
Theorem deposit_then_withdraw w from to v :
  0 < v -> 0 <= balance w -> to <> address_zero -> to <> this w ->
  transact w from (CallDeposit v)
    = (mkWallet (this w) (owner w) (balance w + v)
                (logs w ++ [Deposited from v]), Success) /\
  transact (fst (transact w from (CallDeposit v))) (owner w)
           (CallWithdraw to v Accept)
    = (mkWallet (this w) (owner w) (balance w)
                (logs w ++ [Deposited from v; Withdrawn to v]), Success).
Proof.
  intros Hv Hb Hto Hself.
  assert (E : transact w from (CallDeposit v)
              = (mkWallet (this w) (owner w) (balance w + v)
                          (logs w ++ [Deposited from v]), Success)).
  { unfold transact; simpl dispatch. unfold payable.
    rewrite deposit_eq, Z.gtb_ltb.
    destruct (Z.ltb_spec 0 v); [reflexivity|lia]. }
  split; [exact E|]. rewrite E. simpl fst.
  unfold transact; simpl dispatch. rewrite withdraw_eq. simpl.
  rewrite Z.eqb_refl, (eqb_other _ _ Hto). simpl. rewrite Z.geb_leb.
  destruct (Z.leb_spec v (balance w + v)); [simpl|lia].
  unfold call_value. simpl.
  destruct (Z.ltb_spec (balance w + v) v); [lia|].
  rewrite (eqb_other _ _ Hself). simpl. unfold log_event, debit; simpl.
  rewrite <- app_assoc. simpl. do 2 f_equal. f_equal. lia.
Qed.

Lemma deposit_then_withdraw_witness :
  transact (fst (transact funded 2 (CallDeposit 5))) 1 (CallWithdraw 3 5 Accept)
    = (mkWallet 99 1 10 [Deposited 2 5; Withdrawn 3 5], Success).
Proof.
  apply (proj2 (deposit_then_withdraw funded 2 3 5
                  ltac:(reflexivity) ltac:(vm_compute; congruence)
                  ltac:(vm_compute; congruence) ltac:(vm_compute; congruence))).
Defined.

(** ** The client: retry with backoff *)

Module ClientFacts.
Import Client.

Section Retry.

Context {A : Type}.
Variable fn : nat -> outcome A.
Variable maxRetries : nat.
Variable baseDelay : Z.

Local Abbreviation loop := (retry_loop fn maxRetries baseDelay).

Lemma retryable_rejected i :
  retryable (fn i) = true ->
  exists error, fn i = Rejected error /\ isRateLimited error = true.
Proof.
  destruct (fn i) as [a|error]; simpl; [discriminate|]. eauto.
Qed.

(** Every run of the loop waits the delays of consecutive iterations and,
    within the bound of the loop, invokes [fn] once more than it waits. *)
Lemma loop_shape remaining :
  forall i,
    delays (loop remaining i)
      = map (delay_of baseDelay)
            (seq i (List.length (delays (loop remaining i)))) /\
    (calls (loop remaining i) <= remaining)%nat /\
    ((i + remaining = maxRetries)%nat -> remaining <> O ->
     calls (loop remaining i) = S (List.length (delays (loop remaining i)))).
Proof.
  induction remaining as [|remaining IH]; intros i; simpl.
  - split; [reflexivity|]. split; [lia|]. intros _ H; contradiction.
  - destruct (fn i) as [a|error]; simpl;
      [split; [reflexivity|]; split; [lia|reflexivity]|].
    destruct (isRateLimited error); simpl;
      [|split; [reflexivity|]; split; [lia|reflexivity]].
    destruct (Z.ltb_spec (Z.of_nat i) (Z.of_nat maxRetries - 1)); simpl;
      [|split; [reflexivity|]; split; [lia|reflexivity]].
    destruct (IH (S i)) as (D & C & N). split; [|split].
    + f_equal. exact D.
    + lia.
    + intros Hm _. f_equal. apply N; lia.
Qed.

(** Within the bound of the loop, a run that does not exhaust its
    iterations settles. *)
Lemma loop_settles remaining :
  forall i, (i + remaining = maxRetries)%nat -> remaining <> O ->
            result (loop remaining i) <> Undefined.
Proof.
  induction remaining as [|remaining IH]; intros i Hm Hr; [contradiction|].
  simpl. destruct (fn i) as [a|error]; simpl; [discriminate|].
  destruct (isRateLimited error) ; simpl; [|discriminate].
  destruct (Z.ltb_spec (Z.of_nat i) (Z.of_nat maxRetries - 1)); simpl;
    [|discriminate].
  apply IH; lia.
Qed.

Lemma loop_first_settled k :
  forall remaining i,
    (i + remaining = maxRetries)%nat -> (k < remaining)%nat ->
    (forall j, (j < k)%nat -> retryable (fn (i + j)) = true) ->
    retryable (fn (i + k)) = false ->
    loop remaining i
      = mkTrace (settle (fn (i + k)))
                (map (delay_of baseDelay) (seq i k)) (S k).
Proof.
  induction k as [|k IH]; intros remaining i Hm Hk Hbefore Hat;
    (destruct remaining as [|remaining]; [lia|]); simpl.
  - rewrite Nat.add_0_r in *. destruct (fn i) as [a|error]; simpl in *.
    + reflexivity.
    + rewrite Hat. reflexivity.
  - destruct (retryable_rejected i) as (error & -> & ->).
    { rewrite <- (Nat.add_0_r i). apply Hbefore. lia. }
    destruct (Z.ltb_spec (Z.of_nat i) (Z.of_nat maxRetries - 1)); [|lia].
    simpl. rewrite (IH remaining (S i)).
    + simpl. rewrite Nat.add_succ_r. reflexivity.
    + lia.
    + lia.
    + intros j Hj. simpl. rewrite <- Nat.add_succ_r. apply Hbefore. lia.
    + simpl. rewrite <- Nat.add_succ_r. exact Hat.
Qed.

Lemma loop_exhausted remaining :
  forall i,
    (i + remaining = maxRetries)%nat -> remaining <> O ->
    (forall j, (j < remaining)%nat -> retryable (fn (i + j)) = true) ->
    loop remaining i
      = mkTrace (settle (fn (maxRetries - 1)))
                (map (delay_of baseDelay) (seq i (remaining - 1))) remaining.
Proof.
  induction remaining as [|remaining IH]; intros i Hm Hr Hall; [contradiction|].
  simpl. destruct (retryable_rejected i) as (error & E & R).
  { rewrite <- (Nat.add_0_r i). apply Hall. lia. }
  rewrite E, R. simpl.
  destruct (Z.ltb_spec (Z.of_nat i) (Z.of_nat maxRetries - 1)) as [Hlt|Hge].
  - destruct remaining as [|remaining']; [lia|].
    rewrite (IH (S i)).
    + simpl. rewrite Nat.sub_0_r. reflexivity.
    + lia.
    + discriminate.
    + intros j Hj. simpl. rewrite <- Nat.add_succ_r. apply Hall. lia.
  - assert (remaining = O) by lia. subst remaining.
    replace (maxRetries - 1)%nat with i by lia. rewrite E. reflexivity.
Qed.

Lemma sum_delays k :
  forall i,
    fold_right Z.add 0 (map (delay_of baseDelay) (seq i k))
      = baseDelay * 2 ^ Z.of_nat i * (2 ^ Z.of_nat k - 1).
Proof.
  induction k as [|k IH]; intros i; simpl seq; simpl map; simpl fold_right.
  - simpl. lia.
  - rewrite IH. unfold delay_of.
    rewrite !Nat2Z.inj_succ, !Z.pow_succ_r by lia. lia.
Qed.

End Retry.

(** X8: [retryWithBackoff] invokes [fn] at most [maxRetries] times; before
    retry number [i] it waits [baseDelay * 2^i] ms, so after [n] invocations
    it has waited [baseDelay * (2^(n-1) - 1)] ms in all, at most
    [baseDelay * (2^(maxRetries-1) - 1)] ms (3000 ms with the defaults of the
    library, 3 and 1000). *)
Theorem retry_bounds {A : Type} (fn : nat -> outcome A) maxRetries baseDelay :
  (calls (retryWithBackoff fn maxRetries baseDelay) <= maxRetries)%nat /\
  delays (retryWithBackoff fn maxRetries baseDelay)
    = map (delay_of baseDelay)
          (seq 0 (calls (retryWithBackoff fn maxRetries baseDelay) - 1)) /\
  fold_right Z.add 0 (delays (retryWithBackoff fn maxRetries baseDelay))
    = baseDelay
      * (2 ^ Z.of_nat (calls (retryWithBackoff fn maxRetries baseDelay) - 1) - 1) /\
  (0 <= baseDelay ->
   fold_right Z.add 0 (delays (retryWithBackoff fn maxRetries baseDelay))
     <= baseDelay * (2 ^ Z.of_nat (maxRetries - 1) - 1)).
Proof.
  unfold retryWithBackoff.
  destruct (loop_shape fn maxRetries baseDelay maxRetries 0%nat) as (D & C & N).
  set (t := retry_loop fn maxRetries baseDelay maxRetries 0) in *.
  assert (L : List.length (delays t) = (calls t - 1)%nat).
  { destruct maxRetries as [|m].
    - subst t. reflexivity.
    - rewrite N; [lia | reflexivity | discriminate]. }
  rewrite L in D.
  assert (S : fold_right Z.add 0 (delays t)
              = baseDelay * (2 ^ Z.of_nat (calls t - 1) - 1)).
  { rewrite D at 1. rewrite sum_delays. simpl. lia. }
  repeat split; try assumption.
  intros Hb. rewrite S.
  assert (2 ^ Z.of_nat (calls t - 1) <= 2 ^ Z.of_nat (maxRetries - 1))
    by (apply Z.pow_le_mono_r; lia).
  nia.
Qed.

Lemma retry_bounds_witness :
  fold_right Z.add 0
    (delays (retryWithBackoff
               (fun _ => @Rejected unit (mkError (Some (-32005)) None "busy"))
               3 1000)) <= 3000.
Proof.
  apply (proj2 (proj2 (proj2
    (retry_bounds (fun _ => @Rejected unit (mkError (Some (-32005)) None "busy"))
                  3 1000)))).
  vm_compute; congruence.
Defined.

(** X9: when invocation [k] (counting from 0, with [k < maxRetries]) is the
    first that does not end in a rate-limit error, [retryWithBackoff] settles
    as that invocation does, returning its value or throwing its error
    unchanged, after exactly [k + 1] invocations and the delays
    [baseDelay * 2^0 .. baseDelay * 2^(k-1)]; an error that is not a
    rate-limit error is never retried. *)
Theorem retry_first_settled {A : Type} (fn : nat -> outcome A)
    maxRetries baseDelay k :
  (k < maxRetries)%nat ->
  (forall j, (j < k)%nat -> retryable (fn j) = true) ->
  retryable (fn k) = false ->
  retryWithBackoff fn maxRetries baseDelay
    = mkTrace (settle (fn k)) (map (delay_of baseDelay) (seq 0 k)) (S k).
Proof.
  intros Hk Hbefore Hat.
  apply (loop_first_settled fn maxRetries baseDelay k maxRetries 0%nat);
    [reflexivity | exact Hk | exact Hbefore | exact Hat].
Qed.

Lemma retry_first_settled_witness :
  retryWithBackoff
    (fun i => if (i =? 0)%nat
              then Rejected (mkError None (Some 429) "Too Many Requests")
              else Resolved i) 3 1000
    = mkTrace (Returned 1%nat) [1000] 2.
Proof.
  apply (retry_first_settled
           (fun i => if (i =? 0)%nat
                     then Rejected (mkError None (Some 429) "Too Many Requests")
                     else Resolved i) 3 1000 1).
  - lia.
  - intros [|j] Hj; [reflexivity|lia].
  - reflexivity.
Defined.

(** X10: when all [maxRetries] invocations (at least one) end in a
    rate-limit error, [retryWithBackoff] throws the error of the last one,
    after [maxRetries] invocations and [maxRetries - 1] delays. *)
Theorem retry_exhausted {A : Type} (fn : nat -> outcome A)
    maxRetries baseDelay :
  maxRetries <> O ->
  (forall j, (j < maxRetries)%nat -> retryable (fn j) = true) ->
  retryWithBackoff fn maxRetries baseDelay
    = mkTrace (settle (fn (maxRetries - 1)%nat))
              (map (delay_of baseDelay) (seq 0 (maxRetries - 1))) maxRetries /\
  exists error, fn (maxRetries - 1)%nat = Rejected error /\
                isRateLimited error = true.
Proof.
  intros Hm Hall. split.
  - apply (loop_exhausted fn maxRetries baseDelay maxRetries 0%nat);
      [reflexivity | exact Hm | exact Hall].
  - apply retryable_rejected, Hall. lia.
Qed.

Lemma retry_exhausted_witness :
  retryWithBackoff
    (fun i => @Rejected unit (mkError (Some (-32005)) None "busy")) 3 1000
    = mkTrace (Thrown (mkError (Some (-32005)) None "busy")) [1000; 2000] 3.
Proof.
  apply (proj1 (retry_exhausted
                  (fun i => @Rejected unit (mkError (Some (-32005)) None "busy"))
                  3 1000 ltac:(discriminate) (fun j _ => eq_refl))).
Defined.

(** X11: [retryWithBackoff] falls off its end, returning [undefined] without
    ever invoking [fn], exactly when [maxRetries] is 0; with any positive
    [maxRetries] it returns a value of [fn] or throws. *)
Theorem retry_undefined_iff {A : Type} (fn : nat -> outcome A)
    maxRetries baseDelay :
  (result (retryWithBackoff fn maxRetries baseDelay) = Undefined
   <-> maxRetries = O) /\
  (calls (retryWithBackoff fn maxRetries baseDelay) = O <-> maxRetries = O).
Proof.
  unfold retryWithBackoff. split; split.
  - intros H. destruct maxRetries as [|m] eqn:E; [reflexivity|].
    exfalso. revert H. rewrite <- E.
    apply (loop_settles fn maxRetries baseDelay maxRetries 0%nat);
      [reflexivity | lia].
  - intros ->. reflexivity.
  - intros H. destruct maxRetries as [|m] eqn:E; [reflexivity|].
    exfalso. rewrite <- E in H.
    destruct (loop_shape fn maxRetries baseDelay maxRetries 0%nat) as (_ & _ & N).
    rewrite N in H; [discriminate | reflexivity | lia].
  - intros ->. reflexivity.
Qed.

(** ** The client: the wrappers and the message shown *)

Lemma isRateLimited_friendly error :
  isRateLimited (friendlyError error) = isRateLimited error.
Proof. reflexivity. Qed.

(** X12: the wrappers [deposit], [withdraw] and [withdrawAll] of the library
    make at most three attempts, waiting 1000 ms and then 2000 ms between
    them, and never return [undefined].  A value they return is the value of
    the first attempt that did not end in a rate-limit error.  A rate-limit
    error they throw has the [code] and [data.httpStatus] of the error of
    the third attempt and the message "Network is busy. Please wait a moment
    and try again.", and is thrown only after three rate-limited attempts;
    any other error is the unchanged error of the attempt that raised it, all
    attempts before it having been rate-limited. *)
Theorem submit_settles {A : Type} (send : nat -> outcome A) :
  (calls (deposit send) <= 3)%nat /\
  delays (deposit send)
    = map (delay_of 1000) (seq 0 (calls (deposit send) - 1)) /\
  result (deposit send) <> Undefined /\
  (forall a, result (deposit send) = Returned a ->
     exists k, (k < 3)%nat /\ send k = Resolved a /\
               calls (deposit send) = S k /\
               forall j, (j < k)%nat -> retryable (send j) = true) /\
  (forall e, result (deposit send) = Thrown e ->
     if isRateLimited e
     then exists last,
            send 2%nat = Rejected last /\
            code e = code last /\ httpStatus e = httpStatus last /\
            message e = busy_message /\
            calls (deposit send) = 3%nat /\
            forall j, (j < 3)%nat -> retryable (send j) = true
     else exists k, (k < 3)%nat /\ send k = Rejected e /\
                    calls (deposit send) = S k /\
                    forall j, (j < k)%nat -> retryable (send j) = true) /\
  withdraw send = deposit send /\ withdrawAll send = deposit send.
Proof.
  unfold withdraw, withdrawAll, deposit, submit, retryWithBackoff. simpl.
  destruct (send 0%nat) as [a0|e0] eqn:E0; simpl.
  { repeat split; try discriminate; try lia.
    intros a [= <-]. exists 0%nat. repeat split; [lia|exact E0|intros; lia]. }
  destruct (isRateLimited e0) eqn:R0; simpl.
  2:{ rewrite R0. repeat split; try discriminate; try lia.
      intros e [= <-]. rewrite R0. exists 0%nat.
      repeat split; [lia|exact E0|intros; lia]. }
  assert (B0 : forall j, (j < 1)%nat -> retryable (send j) = true).
  { intros [|j] Hj; [|lia]. rewrite E0. exact R0. }
  destruct (send 1%nat) as [a1|e1] eqn:E1; simpl.
  { repeat split; try discriminate; try lia.
    intros a [= <-]. exists 1%nat. repeat split; [lia|exact E1|exact B0]. }
  destruct (isRateLimited e1) eqn:R1; simpl.
  2:{ rewrite R1. repeat split; try discriminate; try lia.
      intros e [= <-]. rewrite R1. exists 1%nat.
      repeat split; [lia|exact E1|exact B0]. }
  assert (B1 : forall j, (j < 2)%nat -> retryable (send j) = true).
  { intros [|[|j]] Hj; [apply B0; lia|rewrite E1; exact R1|lia]. }
  destruct (send 2%nat) as [a2|e2] eqn:E2; simpl.
  { repeat split; try discriminate; try lia.
    intros a [= <-]. exists 2%nat. repeat split; [lia|exact E2|exact B1]. }
  destruct (isRateLimited e2) eqn:R2; simpl; rewrite R2.
  - repeat split; try discriminate; try lia.
    intros e [= <-]. rewrite isRateLimited_friendly, R2.
    exists e2. repeat split.
    intros [|[|[|j]]] Hj; [apply B1; lia|apply B1; lia|rewrite E2; exact R2|lia].
  - repeat split; try discriminate; try lia.
    intros e [= <-]. rewrite R2. exists 2%nat.
    repeat split; [lia|exact E2|exact B1].
Qed.

Lemma submit_settles_witness :
  result (deposit (fun _ => @Rejected unit
                     (mkError None (Some 429) "Too Many Requests")))
    = Thrown (mkError None (Some 429) busy_message) /\
  exists last,
    @Rejected unit (mkError None (Some 429) "Too Many Requests") = Rejected last /\
    code (mkError None (Some 429) busy_message) = code last /\
    httpStatus (mkError None (Some 429) busy_message) = httpStatus last.
Proof.
  split; [reflexivity|].
  destruct (proj1 (proj2 (proj2 (proj2 (proj2 (submit_settles
    (fun _ => @Rejected unit (mkError None (Some 429) "Too Many Requests")))))))
    (mkError None (Some 429) busy_message) eq_refl)
    as (last & E & Hc & Hh & _).
  exists last. repeat split; assumption.
Defined.

(** X13: the message the hook computes for a failed transaction.  For a
    caught [null] or [undefined] there is none (the [catch] block itself
    raises).  For any other error there is one and it is not empty (the
    fallback texts are not); for a rate-limit error it is the "Network is
    busy" text whatever the error's own message says; an error without a
    message that is neither a rate-limit error nor has code 4001 gets the
    fallback; and an error that matches none of the special cases is shown
    with its own message. *)
Theorem errorMessage_shown fallback err :
  errorMessage fallback None = None /\
  (fallback <> EmptyString ->
   exists m, errorMessage fallback (Some err) = Some m /\ m <> EmptyString) /\
  (isRateLimited err = true ->
   errorMessage fallback (Some err) = Some busy_message) /\
  (isRateLimited err = false -> is_number 4001 (code err) = false ->
   message err = EmptyString ->
   errorMessage fallback (Some err) = Some fallback) /\
  (isRateLimited err = false -> is_number 4001 (code err) = false ->
   includes (message err) "user rejected" = false ->
   includes (message err) "insufficient funds" = false ->
   message err <> EmptyString ->
   errorMessage fallback (Some err) = Some (message err)).
Proof.
  unfold errorMessage. split; [reflexivity|]. split; [|split; [|split]].
  - intros Hf. eexists. split; [reflexivity|].
    destruct (isRateLimited err); [discriminate|].
    destruct (includes (message err) "user rejected" ||
              is_number 4001 (code err)); [discriminate|].
    destruct (includes (message err) "insufficient funds"); [discriminate|].
    destruct (message err); [exact Hf|discriminate].
  - intros ->. reflexivity.
  - intros -> -> ->. reflexivity.
  - intros -> -> -> -> Hm. simpl.
    destruct (message err); [contradiction|reflexivity].
Qed.

Lemma errorMessage_shown_witness :
  errorMessage "Failed to deposit" (Some (mkError None None EmptyString))
    = Some "Failed to deposit" /\
  errorMessage "Failed to deposit"
               (Some (mkError None (Some 429) "user rejected"))
    = Some busy_message /\
  errorMessage "Failed to deposit" (Some (mkError (Some 3) None "execution reverted"))
    = Some "execution reverted".
Proof.
  split; [|split].
  - apply (proj1 (proj2 (proj2 (proj2
      (errorMessage_shown "Failed to deposit" (mkError None None EmptyString))))));
      reflexivity.
  - apply (proj1 (proj2 (proj2
      (errorMessage_shown "Failed to deposit"
         (mkError None (Some 429) "user rejected"))))).
    reflexivity.
  - apply (proj2 (proj2 (proj2 (proj2
      (errorMessage_shown "Failed to deposit"
         (mkError (Some 3) None "execution reverted"))))));
      try reflexivity.
    discriminate.
Defined.

End ClientFacts.
